(** * Intellium backend: authentication core

    Shallow embedding of [app/core/security.py], [app/api/auth.py],
    [app/middleware/rate_limit.py] and [app/middleware/error_handler.py].

    Python exceptions are modelled by the [result] type below; every
    function that can raise returns a [result], and a [try]/[except]
    becomes a [match] on it.  Time is a UTC timestamp in whole seconds
    (python-jose converts [datetime] claims with [calendar.timegm]).
    A signed token is modelled as an ideal MAC: the decoder accepts a
    [Jws] token only when it was produced with the very same secret. *)

From Stdlib Require Import String Ascii ZArith List Bool Lia Permutation.
Import ListNotations.
Open Scope string_scope.
Open Scope Z_scope.

(** ** Python exceptions and results *)

Inductive exc : Type :=
| JWTError                       (* jose.JWTError (bad signature, bad header, malformed) *)
| ExpiredSignatureError          (* jose: subclass of JWTError *)
| JWTClaimsError                 (* jose: subclass of JWTError *)
| ValidationError                (* pydantic.ValidationError *)
| HashError (msg : string)       (* passlib: ValueError on an unknown / malformed hash *)
| IntegrityError                 (* sqlalchemy.exc.IntegrityError, a SQLAlchemyError *)
| HTTPException (status_code : Z) (detail : string) (headers : list (string * string))
| RateLimitExceeded (limit : string).

Inductive result (A : Type) : Type :=
| Ok (a : A)
| Raise (e : exc).
Arguments Ok {A} a.
Arguments Raise {A} e.

Definition bind {A B} (r : result A) (k : A -> result B) : result B :=
  match r with
  | Ok a => k a
  | Raise e => Raise e
  end.

Notation "x <- r ;; k" := (bind r (fun x => k))
  (at level 61, r at next level, right associativity).

(** ** JSON claim sets: a Python [dict] with insertion order *)

Inductive jvalue : Type :=
| JStr (s : string)
| JInt (z : Z)
| JBool (b : bool)
| JNull.

Definition claims := list (string * jvalue).

(** [d.get(k)] *)
Fixpoint dict_get (k : string) (d : claims) : option jvalue :=
  match d with
  | [] => None
  | (k', v) :: d' => if String.eqb k k' then Some v else dict_get k d'
  end.

(** [d[k] = v]: an existing key keeps its position, a new key is appended *)
Fixpoint dict_set (k : string) (v : jvalue) (d : claims) : claims :=
  match d with
  | [] => [(k, v)]
  | (k', v') :: d' =>
      if String.eqb k k' then (k', v) :: d' else (k', v') :: dict_set k v d'
  end.

(** [d.update(u)] *)
Definition dict_update (d u : claims) : claims :=
  fold_left (fun acc kv => dict_set (fst kv) (snd kv) acc) u d.

(** ** Tokens (python-jose, HS256) *)

(** A bearer string is either a JWS produced by [jwt.encode] with some
    key and header algorithm, whose body is a JSON object ([Some c]) or
    some other JSON value ([None]), or a string that does not parse as a
    JWS at all. *)
Inductive token : Type :=
| Jws (key : string) (alg : string) (body : option claims)
| Garbage (raw : string).

Definition ALGORITHM := "HS256".

(** [jwt.encode(to_encode, key, algorithm=alg)] *)
Definition jwt_encode (c : claims) (key alg : string) : token :=
  Jws key alg (Some c).

(** jose's claim checks run by [jwt.decode] with default options
    (leeway 0): [exp] and [iat] must be integers, [exp < now] is expired,
    [sub] must be a string when present. *)
Definition validate_exp (now : Z) (c : claims) : result unit :=
  match dict_get "exp" c with
  | None => Ok tt
  | Some (JInt e) => if e <? now then Raise ExpiredSignatureError else Ok tt
  | Some _ => Raise JWTClaimsError
  end.

Definition validate_iat (c : claims) : result unit :=
  match dict_get "iat" c with
  | None => Ok tt
  | Some (JInt _) => Ok tt
  | Some _ => Raise JWTClaimsError
  end.

Definition validate_sub (c : claims) : result unit :=
  match dict_get "sub" c with
  | None => Ok tt
  | Some (JStr _) => Ok tt
  | Some _ => Raise JWTClaimsError
  end.

(** [jwt.decode(token, key, algorithms=algs)] at time [now] *)
Definition jwt_decode (key : string) (algs : list string) (now : Z) (t : token)
  : result claims :=
  match t with
  | Garbage _ => Raise JWTError
  | Jws k alg body =>
      if negb (existsb (String.eqb alg) algs) then Raise JWTError
      else if negb (String.eqb k key) then Raise JWTError
      else match body with
           | None => Raise JWTError
           | Some c =>
               _ <- validate_exp now c ;;
               _ <- validate_iat c ;;
               _ <- validate_sub c ;;
               Ok c
           end
  end.

(** ** Settings ([app/core/config.py]) *)

Record settings : Type := {
  SECRET_KEY : string;
  ACCESS_TOKEN_EXPIRE_MINUTES : Z
}.

Definition default_settings (secret : string) : settings :=
  {| SECRET_KEY := secret; ACCESS_TOKEN_EXPIRE_MINUTES := 30 |}.

Record TokenData : Type := { td_email : string }.

Section Security.

(** The [TokenData] schema lives in [app/schemas/auth.py]; whatever
    validation it applies to the [email] field is left open here. *)
Variable TokenData_email_ok : string -> bool.

Definition make_TokenData (email : string) : result TokenData :=
  if TokenData_email_ok email then Ok {| td_email := email |}
  else Raise ValidationError.

(** [create_access_token(data, expires_delta)], time in seconds;
    [expires_delta] is a [timedelta], falsy when zero. *)
Definition create_access_token (s : settings) (now : Z) (data : claims)
    (expires_delta : option Z) : token :=
  let expire :=
    match expires_delta with
    | Some d => if Z.eqb d 0 then now + ACCESS_TOKEN_EXPIRE_MINUTES s * 60
                else now + d
    | None => now + ACCESS_TOKEN_EXPIRE_MINUTES s * 60
    end in
  let to_encode := dict_update data [("exp", JInt expire); ("iat", JInt now)] in
  jwt_encode to_encode (SECRET_KEY s) ALGORITHM.

(** [create_refresh_token(data, expires_delta)] *)
Definition create_refresh_token (s : settings) (now : Z) (data : claims)
    (expires_delta : option Z) : token :=
  let delta := match expires_delta with
               | None => 7 * 24 * 3600
               | Some d => d
               end in
  let expire := now + delta in
  let to_encode := dict_update data [("exp", JInt expire); ("type", JStr "refresh")] in
  jwt_encode to_encode (SECRET_KEY s) ALGORITHM.

(** [decode_access_token(token)]: every [except] branch returns [None]. *)
Definition decode_access_token (s : settings) (now : Z) (t : token)
  : option TokenData :=
  match jwt_decode (SECRET_KEY s) [ALGORITHM] now t with
  | Raise _ => None
  | Ok payload =>
      match dict_get "sub" payload with
      | None | Some JNull => None
      | Some (JStr email) =>
          match make_TokenData email with
          | Ok td => Some td
          | Raise _ => None
          end
      | Some _ => None  (* unreachable: jose rejects a non-string sub *)
      end
  end.

End Security.

(** ** Decimal rendering of Python [int] (for f-strings) *)

Definition digit_ascii (d : Z) : ascii := ascii_of_nat (48 + Z.to_nat d).

Fixpoint digits_of_pos (fuel : nat) (n : Z) (acc : string) : string :=
  match fuel with
  | O => acc
  | S fuel' =>
      let acc' := String (digit_ascii (n mod 10)) acc in
      if n <? 10 then acc' else digits_of_pos fuel' (n / 10) acc'
  end.

(** [str(n)] *)
Definition str_of_Z (n : Z) : string :=
  if n <? 0 then "-" ++ digits_of_pos 64 (- n) ""
  else digits_of_pos 64 n "".

(** [s.lower()] on ASCII letters *)
Definition lower_ascii (c : ascii) : ascii :=
  let n := nat_of_ascii c in
  if (65 <=? n)%nat && (n <=? 90)%nat then ascii_of_nat (n + 32) else c.

Fixpoint lower (s : string) : string :=
  match s with
  | EmptyString => EmptyString
  | String c s' => String (lower_ascii c) (lower s')
  end.

(** ** The Credential Store ([app/models/user.py], SQLAlchemy session) *)

Record User : Type := {
  id : Z;
  email : string;
  hashed_password : string;
  full_name : option string;
  is_active : bool;
  is_superuser : bool
}.

Record store : Type := {
  users : list User;
  next_id : Z
}.

(** [db.query(User).filter(User.email == e).first()] *)
Definition query_user_by_email (db : store) (e : string) : option User :=
  find (fun u => String.eqb (email u) e) (users db).

(** Modelled from the spec: the insert of [db.add]/[db.commit] on the
    [users] table ([app/models/user.py] is not available).  The Credential
    Store's [insert(User)] fails on a uniqueness violation of [email];
    otherwise the row gets the next autoincrement id. *)
Definition store_insert (db : store) (u : User) : result (store * User) :=
  if existsb (fun v => String.eqb (email v) (email u)) (users db)
  then Raise IntegrityError
  else
    let u' := {| id := next_id db; email := email u;
                 hashed_password := hashed_password u; full_name := full_name u;
                 is_active := is_active u; is_superuser := is_superuser u |} in
    Ok ({| users := users db ++ [u']; next_id := next_id db + 1 |}, u').

(** Modelled from the spec: [UserResponse] ([app/schemas/auth.py] is not
    available), the public User representation; it has no password hash. *)
Record UserResponse : Type := {
  r_id : Z;
  r_email : string;
  r_full_name : option string;
  r_is_active : bool;
  r_is_superuser : bool
}.

Definition to_UserResponse (u : User) : UserResponse :=
  {| r_id := id u; r_email := email u; r_full_name := full_name u;
     r_is_active := is_active u; r_is_superuser := is_superuser u |}.

(** ** Requests and responses *)

Inductive auth_header : Type :=
| NoHeader
| Header (scheme : string) (param : token).

Record request : Type := {
  authorization : auth_header;
  client_host : option string;
  state_user : option User        (* [request.state.user] *)
}.

Definition set_state_user (u : User) (r : request) : request :=
  {| authorization := authorization r; client_host := client_host r;
     state_user := Some u |}.

Record LoginResponse : Type := {
  access_token : token;
  token_type : string;
  user : UserResponse
}.

Inductive body : Type :=
| UserBody (u : UserResponse)
| LoginBody (l : LoginResponse)
| ErrorBody (error : string) (message : string).

Record response : Type := {
  status : Z;
  resp_body : body
}.

(** The exception handlers of [setup_error_handlers] and
    [setup_rate_limiting]: Starlette picks the handler of the most
    specific class, so slowapi's [RateLimitExceeded] (an [HTTPException]
    subclass) goes to [_rate_limit_exceeded_handler]. *)
Definition handle_exc (e : exc) : response :=
  match e with
  | RateLimitExceeded l =>
      {| status := 429; resp_body := ErrorBody "Rate limit exceeded" l |}
  | HTTPException code detail _ =>
      {| status := code; resp_body := ErrorBody ("HTTP_" ++ str_of_Z code) detail |}
  | IntegrityError =>
      {| status := 500; resp_body := ErrorBody "DATABASE_ERROR" "A database error occurred" |}
  | _ =>
      {| status := 500;
         resp_body := ErrorBody "INTERNAL_SERVER_ERROR" "An unexpected error occurred" |}
  end.

(** [OAuth2PasswordBearer(tokenUrl="auth/login")] with [auto_error=True] *)
Definition oauth2_scheme (h : auth_header) : result token :=
  let not_authenticated :=
    HTTPException 401 "Not authenticated" [("WWW-Authenticate", "Bearer")] in
  match h with
  | NoHeader => Raise not_authenticated
  | Header scheme param =>
      if String.eqb (lower scheme) "bearer" then Ok param else Raise not_authenticated
  end.

Definition credentials_exception : exc :=
  HTTPException 401 "Could not validate credentials" [("WWW-Authenticate", "Bearer")].

Record UserCreate : Type := {
  in_email : string;
  in_password : string;
  in_full_name : option string
}.

Record OAuth2PasswordRequestForm : Type := {
  username : string;
  password : string
}.

Section Auth.

Variable TokenData_email_ok : string -> bool.
(** passlib's [CryptContext(schemes=["bcrypt"])]: [verify] may raise on a
    malformed hash; [hash] embeds a fresh salt. *)
Variable pwd_context_verify : string -> string -> result bool.
Variable pwd_context_hash : string -> string.

(** [verify_password(plain_password, hashed_password)] *)
Definition verify_password (plain hashed : string) : bool :=
  match pwd_context_verify plain hashed with
  | Ok r => r
  | Raise _ => false
  end.

(** [get_password_hash(password)] *)
Definition get_password_hash (pw : string) : string := pwd_context_hash pw.

(** [get_current_user(token, db, request)]: the token comes from the
    [oauth2_scheme] dependency; on success the user is stored in
    [request.state.user]. *)
Definition get_current_user (s : settings) (now : Z) (db : store) (req : request)
  : result User * request :=
  match oauth2_scheme (authorization req) with
  | Raise e => (Raise e, req)
  | Ok tok =>
      match decode_access_token TokenData_email_ok s now tok with
      | None => (Raise credentials_exception, req)
      | Some td =>
          match query_user_by_email db (td_email td) with
          | None => (Raise credentials_exception, req)
          | Some u => (Ok u, set_state_user u req)
          end
      end
  end.

(** [GET /auth/me]: [read_current_user] returns the dependency's user. *)
Definition read_current_user (s : settings) (now : Z) (db : store) (req : request)
  : response :=
  match fst (get_current_user s now db req) with
  | Ok u => {| status := 200; resp_body := UserBody (to_UserResponse u) |}
  | Raise e => handle_exc e
  end.

(** [login(request, form_data, db)] *)
Definition login (s : settings) (now : Z) (db : store) (form : OAuth2PasswordRequestForm)
  : result LoginResponse :=
  match query_user_by_email db (username form) with
  | None => Raise (HTTPException 401 "Incorrect email or password" [])
  | Some u =>
      if negb (verify_password (password form) (hashed_password u)) then
        Raise (HTTPException 401 "Incorrect email or password" [])
      else if negb (is_active u) then
        Raise (HTTPException 403 "Inactive user" [])
      else
        Ok {| access_token := create_access_token s now [("sub", JStr (email u))] None;
              token_type := "bearer";
              user := to_UserResponse u |}
  end.

Definition login_response (s : settings) (now : Z) (db : store)
    (form : OAuth2PasswordRequestForm) : response :=
  match login s now db form with
  | Ok l => {| status := 200; resp_body := LoginBody l |}
  | Raise e => handle_exc e
  end.

(** [register] in two phases, so that concurrent registrations can be
    interleaved: the existence check reads the store, the commit writes. *)
Definition register_check (db : store) (ui : UserCreate) : result unit :=
  match query_user_by_email db (in_email ui) with
  | Some _ => Raise (HTTPException 400 "Email already registered" [])
  | None => Ok tt
  end.

Definition register_new_user (ui : UserCreate) : User :=
  {| id := 0;  (* assigned by the store on commit *)
     email := in_email ui;
     hashed_password := get_password_hash (in_password ui);
     full_name := in_full_name ui;
     is_active := true;
     is_superuser := false |}.

Definition register_finish (chk : result unit) (ui : UserCreate) (db : store)
  : result User * store :=
  match chk with
  | Raise e => (Raise e, db)
  | Ok _ =>
      match store_insert db (register_new_user ui) with
      | Ok (db', u) => (Ok u, db')
      | Raise e => (Raise e, db)   (* failed transaction: nothing written *)
      end
  end.

(** [register(request, user_in, db)] run alone *)
Definition register (db : store) (ui : UserCreate) : result User * store :=
  register_finish (register_check db ui) ui db.

(** Two registrations whose existence checks both run before either
    commits; the first commits first. *)
Definition register_interleaved (db : store) (a b : UserCreate)
  : (result User * result User) * store :=
  let ca := register_check db a in
  let cb := register_check db b in
  let '(ra, db1) := register_finish ca a db in
  let '(rb, db2) := register_finish cb b db1 in
  ((ra, rb), db2).

Definition register_response (r : result User) : response :=
  match r with
  | Ok u => {| status := 201; resp_body := UserBody (to_UserResponse u) |}
  | Raise e => handle_exc e
  end.

End Auth.

(** ** Rate limiting ([app/middleware/rate_limit.py], slowapi + limits) *)

(** [slowapi.util.get_remote_address] *)
Definition get_remote_address (req : request) : string :=
  match client_host req with
  | None | Some EmptyString => "127.0.0.1"
  | Some h => h
  end.

(** [get_client_identifier(request)]: a [User] object is truthy and has
    an [id] attribute. *)
Definition get_client_identifier (req : request) : string :=
  match state_user req with
  | Some u => "user:" ++ str_of_Z (id u)
  | None => "ip:" ++ get_remote_address req
  end.

(** A parsed limit string: [amount] hits per [per] seconds. *)
Record limit_item : Type := {
  amount : Z;
  per : Z;
  limit_text : string
}.

Definition limit_5_per_minute := {| amount := 5; per := 60; limit_text := "5 per 1 minute" |}.
Definition limit_10_per_minute := {| amount := 10; per := 60; limit_text := "10 per 1 minute" |}.
Definition limit_100_per_minute := {| amount := 100; per := 60; limit_text := "100 per 1 minute" |}.
Definition limit_1000_per_hour := {| amount := 1000; per := 3600; limit_text := "1000 per 1 hour" |}.

(** [Limiter(default_limits=["100/minute", "1000/hour"], ...)]: slowapi
    consults these only from [SlowAPIMiddleware], which [app/main.py]
    does not install. *)
Definition default_limits : list limit_item := [limit_100_per_minute; limit_1000_per_hour].

(** [limits.storage.MemoryStorage]: key -> (counter, expiry time) *)
Definition mem := list (string * (Z * Z)).

Fixpoint mem_get (k : string) (m : mem) : option (Z * Z) :=
  match m with
  | [] => None
  | (k', v) :: m' => if String.eqb k k' then Some v else mem_get k m'
  end.

Fixpoint mem_put (k : string) (v : Z * Z) (m : mem) : mem :=
  match m with
  | [] => [(k, v)]
  | (k', v') :: m' => if String.eqb k k' then (k', v) :: m' else (k', v') :: mem_put k v m'
  end.

(** [MemoryStorage.incr(key, expiry)]: [get] first drops an entry whose
    expiry is [<= now]; the expiry is set when the counter reaches 1. *)
Definition incr (now : Z) (k : string) (expiry : Z) (m : mem) : Z * mem :=
  let '(c, t) :=
    match mem_get k m with
    | Some (c, t) => if t <=? now then (0, 0) else (c, t)
    | None => (0, 0)
    end in
  let c' := c + 1 in
  let t' := if c' =? 1 then now + expiry else t in
  (c', mem_put k (c', t') m).

(** [FixedWindowRateLimiter.hit(item, key, scope)] *)
Definition hit (now : Z) (l : limit_item) (ident scope : string) (m : mem) : bool * mem :=
  let k := "LIMITER/" ++ ident ++ "/" ++ scope ++ "/" ++ limit_text l in
  let '(c, m') := incr now k (per l) m in
  (c <=? amount l, m').

(** The check run by the [@limiter.limit(...)] wrapper before the route
    function: every limit of the route is hit in turn; the first one
    exceeded raises [RateLimitExceeded]. *)
Fixpoint check_limits (now : Z) (ident scope : string) (ls : list limit_item) (m : mem)
  : result unit * mem :=
  match ls with
  | [] => (Ok tt, m)
  | l :: ls' =>
      let '(ok, m') := hit now l ident scope m in
      if ok then check_limits now ident scope ls' m'
      else (Raise (RateLimitExceeded (limit_text l)), m')
  end.

(** ** The application: routes of [app/api/auth.py] under [/api] *)

Inductive route_call : Type :=
| RegisterCall (ui : UserCreate)
| LoginCall (form : OAuth2PasswordRequestForm)
| MeCall.

(** The limits attached by decorators: [@limiter.limit("5/minute")] on
    [register], [@limiter.limit("10/minute")] on [login], none on
    [read_current_user]. *)
Definition route_limits (c : route_call) : list limit_item :=
  match c with
  | RegisterCall _ => [limit_5_per_minute]
  | LoginCall _ => [limit_10_per_minute]
  | MeCall => []
  end.

Record app_state : Type := {
  app_db : store;
  app_mem : mem
}.

Section App.

Variable TokenData_email_ok : string -> bool.
Variable pwd_context_verify : string -> string -> result bool.
Variable pwd_context_hash : string -> string.
Variable s : settings.

(** One request: the decorated routes run the limiter check, then the
    route; [GET /auth/me] has no decorator and no middleware checks it. *)
Definition handle_request (now : Z) (st : app_state) (req : request) (c : route_call)
  : response * app_state :=
  match c with
  | RegisterCall ui =>
      match check_limits now (get_client_identifier req) "app.api.auth.register"
              (route_limits c) (app_mem st) with
      | (Raise e, m') => (handle_exc e, {| app_db := app_db st; app_mem := m' |})
      | (Ok _, m') =>
          let '(r, db') := register pwd_context_hash (app_db st) ui in
          (register_response r, {| app_db := db'; app_mem := m' |})
      end
  | LoginCall form =>
      match check_limits now (get_client_identifier req) "app.api.auth.login"
              (route_limits c) (app_mem st) with
      | (Raise e, m') => (handle_exc e, {| app_db := app_db st; app_mem := m' |})
      | (Ok _, m') =>
          (login_response pwd_context_verify s now (app_db st) form,
           {| app_db := app_db st; app_mem := m' |})
      end
  | MeCall =>
      (read_current_user TokenData_email_ok s now (app_db st) req, st)
  end.

(** A sequence of requests, each with its arrival time. *)
Fixpoint run (st : app_state) (rs : list (Z * request * route_call))
  : list response * app_state :=
  match rs with
  | [] => ([], st)
  | (now, req, c) :: rs' =>
      let '(resp, st') := handle_request now st req c in
      let '(resps, st'') := run st' rs' in
      (resp :: resps, st'')
  end.

End App.

(** ** Auxiliary definitions and sample data used by the properties *)

Definition invalid_credentials : exc :=
  HTTPException 401 "Incorrect email or password" [].

Definition with_active (b : bool) (u : User) : User :=
  {| id := id u; email := email u; hashed_password := hashed_password u;
     full_name := full_name u; is_active := b; is_superuser := is_superuser u |}.

Definition store_with_active (b : bool) (db : store) : store :=
  {| users := map (with_active b) (users db); next_id := next_id db |}.

Definition with_hash (h : string) (u : User) : User :=
  {| id := id u; email := email u; hashed_password := h;
     full_name := full_name u; is_active := is_active u; is_superuser := is_superuser u |}.

Definition duplicate_email : exc := HTTPException 400 "Email already registered" [].

Definition database_error_response : response :=
  {| status := 500; resp_body := ErrorBody "DATABASE_ERROR" "A database error occurred" |}.

(** Sample settings, users and requests. *)
Definition demo_settings := default_settings "change-me".

Definition demo_user : User :=
  {| id := 1; email := "a@x.com"; hashed_password := "bcrypt:password123";
     full_name := None; is_active := true; is_superuser := false |}.

Definition demo_state : app_state :=
  {| app_db := {| users := [demo_user]; next_id := 2 |}; app_mem := [] |}.

Definition demo_me_request : request :=
  {| authorization :=
       Header "Bearer" (create_access_token demo_settings 0 [("sub", JStr "a@x.com")] None);
     client_host := Some "10.0.0.1"; state_user := None |}.

Definition demo_verify (p h : string) : result bool := Ok (String.eqb h ("bcrypt:" ++ p)).

Definition demo_hash (p : string) : string := "bcrypt:" ++ p.

Definition demo_anon_request : request :=
  {| authorization := NoHeader; client_host := Some "10.0.0.1"; state_user := None |}.

Definition demo_register (n : Z) : route_call :=
  RegisterCall {| in_email := "u" ++ str_of_Z n ++ "@x.com"; in_password := "password123";
                  in_full_name := None |}.

Definition demo_refresh_request : request :=
  {| authorization :=
       Header "Bearer" (create_refresh_token demo_settings 0 [("sub", JStr "a@x.com")] None);
     client_host := Some "10.0.0.1"; state_user := None |}.

Definition demo_inactive_user : User :=
  {| id := 2; email := "b@x.com"; hashed_password := "bcrypt:password123";
     full_name := None; is_active := false; is_superuser := false |}.

Definition demo_inactive_request : request :=
  {| authorization :=
       Header "Bearer" (create_access_token demo_settings 0 [("sub", JStr "b@x.com")] None);
     client_host := Some "10.0.0.2"; state_user := None |}.

Definition demo_db : store := {| users := [demo_user; demo_inactive_user]; next_id := 3 |}.

(** ** Health check ([app/api/routes/health.py]) *)



(** ** CORS origins ([Settings.assemble_cors_origins], [app/core/config.py]) *)

(** The raw value handed to a [pre=True] validator. *)
#[warnings="-register-all"]
Inductive pyvalue : Type :=
| PyStr (s : string)
| PyList (l : list pyvalue)
| PyOther (v : jvalue).

(** [c.isspace()] on ASCII characters *)
Definition is_space (c : ascii) : bool :=
  match nat_of_ascii c with
  | 9 | 10 | 11 | 12 | 13 | 28 | 29 | 30 | 31 | 32 => true
  | _ => false
  end%nat.

Fixpoint lstrip (s : string) : string :=
  match s with
  | EmptyString => EmptyString
  | String c s' => if is_space c then lstrip s' else s
  end.

Fixpoint rstrip (s : string) : string :=
  match s with
  | EmptyString => EmptyString
  | String c s' =>
      let r := rstrip s' in
      if is_space c && String.eqb r "" then "" else String c r
  end.

(** [s.strip()] *)
Definition strip (s : string) : string := rstrip (lstrip s).

(** [s.split(",")] *)
Fixpoint split_comma (s : string) : list string :=
  match s with
  | EmptyString => [""]
  | String c s' =>
      let parts := split_comma s' in
      if Ascii.eqb c ","%char then "" :: parts
      else match parts with
           | p :: ps => String c p :: ps
           | [] => [String c ""]
           end
  end.

(** [assemble_cors_origins(cls, v)] *)
Definition assemble_cors_origins (v : pyvalue) : list pyvalue :=
  match v with
  | PyStr s => map (fun i => PyStr (strip i)) (split_comma s)
  | PyList l => l
  | PyOther _ => [v]
  end.


Fixpoint count_commas (s : string) : nat :=
  match s with
  | EmptyString => O
  | String c s' => (if Ascii.eqb c ","%char then 1 else 0) + count_commas s'
  end.

(** ** Rate-limit keys and sequences of checks *)

(** The storage key [hit] uses for a limit, an identifier and a scope. *)
Definition limit_key (l : limit_item) (ident scope : string) : string :=
  "LIMITER/" ++ ident ++ "/" ++ scope ++ "/" ++ limit_text l.

(** The slowapi scope of each route function *)
Definition route_scope (c : route_call) : string :=
  match c with
  | RegisterCall _ => "app.api.auth.register"
  | LoginCall _ => "app.api.auth.login"
  | MeCall => "app.api.auth.read_current_user"
  end.

(** The limiter check of one route run for requests at the given times. *)
Fixpoint check_seq (ident scope : string) (ls : list limit_item) (ts : list Z) (m : mem)
  : list (result unit) * mem :=
  match ts with
  | [] => ([], m)
  | t :: ts' =>
      let '(r, m') := check_limits t ident scope ls m in
      let '(rs, m'') := check_seq ident scope ls ts' m' in
      (r :: rs, m'')
  end.

(** The answer of a single-limit check for the [i]-th request of a window *)
Definition window_answer (l : limit_item) (i : Z) : result unit :=
  if i <=? amount l then Ok tt else Raise (RateLimitExceeded (limit_text l)).

(** ** The Credential Store invariant *)

Definition store_wf (db : store) : Prop :=
  NoDup (map email (users db)) /\ NoDup (map id (users db)) /\
  Forall (fun u => id u < next_id db) (users db).

(** ** Reading back a decimal rendering *)



Definition internal_error_response : response :=
  {| status := 500;
     resp_body := ErrorBody "INTERNAL_SERVER_ERROR" "An unexpected error occurred" |}.

(** An authenticated request, and a limiter store where an identity has
    used up its [register] window. *)



(** * Properties *)

(** ** Shared lemmas *)

Lemma query_user_by_email_email (db : store) (e : string) (u : User) :
  query_user_by_email db e = Some u -> email u = e.
Proof.
  unfold query_user_by_email. intros H.
  apply find_some in H as [_ H]. now apply String.eqb_eq.
Qed.

Lemma query_user_by_email_none (db : store) (e : string) :
  query_user_by_email db e = None ->
  existsb (fun v => String.eqb (email v) e) (users db) = false.
Proof.
  unfold query_user_by_email. induction (users db) as [|v l IH]; simpl; [easy|].
  destruct (String.eqb (email v) e); [discriminate|]. exact IH.
Qed.

Lemma jwt_decode_wrong_key (key k alg : string) (algs : list string) (now : Z)
    (b : option claims) :
  k <> key -> jwt_decode key algs now (Jws k alg b) = Raise JWTError.
Proof.
  intros Hk. simpl.
  destruct (negb (existsb (String.eqb alg) algs)); [reflexivity|].
  apply String.eqb_neq in Hk. now rewrite Hk.
Qed.

Lemma jwt_decode_expired (key k alg : string) (algs : list string) (now e : Z)
    (c : claims) :
  dict_get "exp" c = Some (JInt e) -> e < now ->
  exists ex, jwt_decode key algs now (Jws k alg (Some c)) = Raise ex.
Proof.
  intros He Hlt. simpl.
  destruct (negb (existsb (String.eqb alg) algs)); [eauto|].
  destruct (negb (String.eqb k key)); [eauto|].
  unfold validate_exp. rewrite He.
  apply Z.ltb_lt in Hlt. rewrite Hlt. simpl. eauto.
Qed.

Lemma decode_access_token_raise ok s now t ex :
  jwt_decode (SECRET_KEY s) [ALGORITHM] now t = Raise ex ->
  decode_access_token ok s now t = None.
Proof. unfold decode_access_token. now intros ->. Qed.

Lemma decode_access_token_Some_inv ok s now t td :
  decode_access_token ok s now t = Some td ->
  exists c, jwt_decode (SECRET_KEY s) [ALGORITHM] now t = Ok c /\
            dict_get "sub" c = Some (JStr (td_email td)).
Proof.
  unfold decode_access_token.
  destruct (jwt_decode (SECRET_KEY s) [ALGORITHM] now t) as [c|]; [|discriminate].
  destruct (dict_get "sub" c) as [[email| | |]|] eqn:Hs; try discriminate.
  unfold make_TokenData. destruct (ok email); [|discriminate].
  intros [= <-]. eauto.
Qed.

Lemma decode_access_token_no_sub ok s now t c :
  jwt_decode (SECRET_KEY s) [ALGORITHM] now t = Ok c ->
  dict_get "sub" c = None -> decode_access_token ok s now t = None.
Proof. unfold decode_access_token. now intros -> ->. Qed.

Lemma jwt_decode_ok_body key algs now k alg c c' :
  jwt_decode key algs now (Jws k alg (Some c)) = Ok c' -> c' = c.
Proof.
  simpl. destruct (negb _); [discriminate|]. destruct (negb _); [discriminate|].
  destruct (validate_exp now c); [|discriminate]; simpl.
  destruct (validate_iat c); [|discriminate]; simpl.
  destruct (validate_sub c); [|discriminate]; simpl. congruence.
Qed.

(** ** C4: decoding never raises and fails uniformly *)

(** C4. [decode_access_token] is total (it returns an [option], every
    exception being caught) and returns [None] for a token signed with
    another key, a string that is not a JWS, a body that is not a JSON
    object, a payload with no [sub] claim, and a token whose [exp] is in
    the past; when it succeeds, its [TokenData] carries the [sub] claim of
    the verified payload. *)
Theorem decode_access_token_invalid_cases (ok : string -> bool) (s : settings)
    (now : Z) :
  (forall k alg b, k <> SECRET_KEY s -> decode_access_token ok s now (Jws k alg b) = None) /\
  (forall raw, decode_access_token ok s now (Garbage raw) = None) /\
  (forall k alg, decode_access_token ok s now (Jws k alg None) = None) /\
  (forall k alg c, dict_get "sub" c = None ->
     decode_access_token ok s now (Jws k alg (Some c)) = None) /\
  (forall k alg c e, dict_get "exp" c = Some (JInt e) -> e < now ->
     decode_access_token ok s now (Jws k alg (Some c)) = None) /\
  (forall t td, decode_access_token ok s now t = Some td ->
     exists c, jwt_decode (SECRET_KEY s) [ALGORITHM] now t = Ok c /\
               dict_get "sub" c = Some (JStr (td_email td))).
Proof.
  split; [|split; [reflexivity|split; [|split; [|split]]]].
  - intros k alg b Hk. eapply decode_access_token_raise.
    now apply jwt_decode_wrong_key.
  - intros k alg. unfold decode_access_token. simpl.
    destruct (negb (String.eqb alg ALGORITHM || false)); [reflexivity|].
    now destruct (negb (String.eqb k (SECRET_KEY s))).
  - intros k alg c Hs.
    destruct (jwt_decode (SECRET_KEY s) [ALGORITHM] now (Jws k alg (Some c)))
      as [c'|ex] eqn:Hd.
    + apply jwt_decode_ok_body in Hd as Hc. subst c'.
      eapply decode_access_token_no_sub; eauto.
    + eapply decode_access_token_raise; eauto.
  - intros k alg c e He Hlt.
    destruct (jwt_decode_expired (SECRET_KEY s) k alg [ALGORITHM] now e c He Hlt) as [ex Hex].
    eapply decode_access_token_raise; eauto.
  - intros t td. apply decode_access_token_Some_inv.
Qed.

(** ** C1: the [type=refresh] tag is never checked *)

Lemma refresh_token_decodes ok s now e d :
  ok e = true -> (forall x, d = Some x -> 0 <= x) ->
  decode_access_token ok s now (create_refresh_token s now [("sub", JStr e)] d)
    = Some {| td_email := e |}.
Proof.
  intros Hok Hd.
  assert (Hdelta : 0 <= match d with None => 7 * 24 * 3600 | Some x => x end)
    by (destruct d; [apply Hd; reflexivity | lia]).
  unfold create_refresh_token, decode_access_token.
  set (delta := match d with None => _ | Some x => x end) in *.
  cbn -[Z.add Z.ltb]. rewrite String.eqb_refl. cbn -[Z.add Z.ltb].
  replace (now + delta <? now) with false by (symmetry; apply Z.ltb_ge; lia).
  cbn. unfold make_TokenData. now rewrite Hok.
Qed.

(** C1 (code_bug). A refresh token made by [create_refresh_token] for an
    existing user's email is accepted by [decode_access_token] and, sent
    as a bearer access token, resolves to that user in [get_current_user]:
    nothing rejects the [type=refresh] tag. *)
Theorem refresh_token_accepted_as_access_token (ok : string -> bool) (s : settings)
    (now : Z) (e : string) (d : option Z) (db : store) (u : User) (req : request) :
  ok e = true ->
  (forall x, d = Some x -> 0 <= x) ->
  query_user_by_email db e = Some u ->
  authorization req = Header "Bearer" (create_refresh_token s now [("sub", JStr e)] d) ->
  decode_access_token ok s now (create_refresh_token s now [("sub", JStr e)] d)
    = Some {| td_email := e |} /\
  fst (get_current_user ok s now db req) = Ok u.
Proof.
  intros Hok Hd Hq Hreq. pose proof (refresh_token_decodes ok s now e d Hok Hd) as Hdec.
  split; [exact Hdec|].
  unfold get_current_user. rewrite Hreq. simpl. rewrite Hdec. simpl. now rewrite Hq.
Qed.

Lemma refresh_token_accepted_as_access_token_witness :
  decode_access_token (fun _ => true) demo_settings 0
    (create_refresh_token demo_settings 0 [("sub", JStr "a@x.com")] None)
    = Some {| td_email := "a@x.com" |} /\
  fst (get_current_user (fun _ => true) demo_settings 0 demo_db demo_refresh_request)
    = Ok demo_user.
Proof.
  apply (refresh_token_accepted_as_access_token (fun _ => true) demo_settings 0
           "a@x.com" None demo_db demo_user demo_refresh_request).
  - reflexivity.
  - intros x H. discriminate.
  - reflexivity.
  - reflexivity.
Defined.

(** ** C2: the login protocol *)

(** C2. [login] checks, in order: unknown email gives 401 "Incorrect email
    or password"; a wrong password gives exactly the same exception; an
    inactive user with the right password gets 403; otherwise the access
    token is the one [create_access_token] makes with [sub] = the email. *)
Theorem login_protocol (pv : string -> string -> result bool) (s : settings) (now : Z)
    (db : store) (form : OAuth2PasswordRequestForm) :
  (query_user_by_email db (username form) = None ->
     login pv s now db form = Raise invalid_credentials) /\
  (forall u, query_user_by_email db (username form) = Some u ->
     verify_password pv (password form) (hashed_password u) = false ->
     login pv s now db form = Raise invalid_credentials) /\
  (forall u, query_user_by_email db (username form) = Some u ->
     verify_password pv (password form) (hashed_password u) = true ->
     is_active u = false ->
     login pv s now db form = Raise (HTTPException 403 "Inactive user" [])) /\
  (forall u, query_user_by_email db (username form) = Some u ->
     verify_password pv (password form) (hashed_password u) = true ->
     is_active u = true ->
     exists l, login pv s now db form = Ok l /\
       access_token l = create_access_token s now [("sub", JStr (username form))] None /\
       token_type l = "bearer" /\ user l = to_UserResponse u).
Proof.
  unfold login. split; [|split; [|split]].
  - now intros ->.
  - intros u -> Hv. now rewrite Hv.
  - intros u -> Hv Ha. now rewrite Hv, Ha.
  - intros u Hq Hv Ha. apply query_user_by_email_email in Hq as He.
    rewrite Hq, Hv, Ha. simpl. eexists; split; [reflexivity|].
    simpl. now rewrite He.
Qed.

(** ** C8: password verification fails closed *)

(** C8. [verify_password] returns a boolean for every pair of strings: a
    passlib exception (e.g. a malformed hash) yields [false], and [login]
    then answers exactly as it does for a verifier that reports a wrong
    password. *)
Theorem verify_password_fail_closed (pv : string -> string -> result bool) :
  (forall plain hashed e, pv plain hashed = Raise e ->
     verify_password pv plain hashed = false) /\
  (forall s now db form u e,
     query_user_by_email db (username form) = Some u ->
     pv (password form) (hashed_password u) = Raise e ->
     login pv s now db form = login (fun _ _ => Ok false) s now db form /\
     login pv s now db form = Raise invalid_credentials).
Proof.
  split.
  - intros plain hashed e H. unfold verify_password. now rewrite H.
  - intros s now db form u e Hq H. unfold login, verify_password.
    rewrite Hq, H. split; reflexivity.
Qed.

(** ** C5: every failure of [GET /auth/me] is a 401 *)

(** C5. [GET /auth/me] answers 401 with no [Authorization] header; and a
    bearer token that does not decode (tampered, wrong key, malformed),
    one whose [exp] is in the past, and a valid token whose subject is no
    stored user all get one and the same response, the one of
    [credentials_exception] (401 "Could not validate credentials"). *)
Theorem me_unauthorized_uniform (ok : string -> bool) (s : settings) (now : Z)
    (db : store) (req : request) :
  (authorization req = NoHeader -> status (read_current_user ok s now db req) = 401) /\
  (forall scheme tok, authorization req = Header scheme tok -> lower scheme = "bearer" ->
     decode_access_token ok s now tok = None ->
     read_current_user ok s now db req = handle_exc credentials_exception) /\
  (forall scheme k alg c e,
     authorization req = Header scheme (Jws k alg (Some c)) -> lower scheme = "bearer" ->
     dict_get "exp" c = Some (JInt e) -> e < now ->
     read_current_user ok s now db req = handle_exc credentials_exception) /\
  (forall scheme tok td, authorization req = Header scheme tok -> lower scheme = "bearer" ->
     decode_access_token ok s now tok = Some td ->
     query_user_by_email db (td_email td) = None ->
     read_current_user ok s now db req = handle_exc credentials_exception) /\
  status (handle_exc credentials_exception) = 401.
Proof.
  unfold read_current_user, get_current_user, oauth2_scheme.
  split; [|split; [|split; [|split]]].
  - now intros ->.
  - intros scheme tok -> Hl Hd. rewrite Hl. simpl. now rewrite Hd.
  - intros scheme k alg c e -> Hl He Hlt. rewrite Hl. simpl.
    destruct (jwt_decode_expired (SECRET_KEY s) k alg [ALGORITHM] now e c He Hlt)
      as [ex Hex].
    now rewrite (decode_access_token_raise ok s now _ ex Hex).
  - intros scheme tok td -> Hl Hd Hq. rewrite Hl. simpl. now rewrite Hd, Hq.
  - reflexivity.
Qed.

(** ** C6: principal resolution ignores [is_active] *)

Lemma query_store_with_active (b : bool) (db : store) (e : string) :
  query_user_by_email (store_with_active b db) e
  = option_map (with_active b) (query_user_by_email db e).
Proof.
  unfold query_user_by_email, store_with_active. simpl.
  induction (users db) as [|v l IH]; simpl; [reflexivity|].
  now destruct (String.eqb (email v) e).
Qed.

Lemma read_current_user_status_with_active ok s now db req b :
  status (read_current_user ok s now (store_with_active b db) req)
  = status (read_current_user ok s now db req).
Proof.
  unfold read_current_user, get_current_user.
  destruct (oauth2_scheme (authorization req)) as [tok|ex]; [|reflexivity].
  destruct (decode_access_token ok s now tok) as [td|]; [|reflexivity].
  rewrite query_store_with_active.
  now destruct (query_user_by_email db (td_email td)).
Qed.

(** C6. [get_current_user] never reads [is_active]: for a valid bearer
    token whose subject is a stored inactive user, it returns that user
    and [GET /auth/me] answers 200 with it; and setting every user's
    active flag to any value leaves the status of [GET /auth/me]
    unchanged. *)
Theorem get_current_user_ignores_is_active (ok : string -> bool) (s : settings)
    (now : Z) (db : store) (req : request) (scheme : string) (tok : token)
    (td : TokenData) (u : User) :
  authorization req = Header scheme tok -> lower scheme = "bearer" ->
  decode_access_token ok s now tok = Some td ->
  query_user_by_email db (td_email td) = Some u ->
  is_active u = false ->
  fst (get_current_user ok s now db req) = Ok u /\
  read_current_user ok s now db req
    = {| status := 200; resp_body := UserBody (to_UserResponse u) |} /\
  (forall b, status (read_current_user ok s now (store_with_active b db) req) = 200).
Proof.
  intros Ha Hl Hd Hq _.
  assert (Hg : fst (get_current_user ok s now db req) = Ok u)
    by (unfold get_current_user, oauth2_scheme; rewrite Ha, Hl; simpl; now rewrite Hd, Hq).
  assert (Hr : read_current_user ok s now db req
               = {| status := 200; resp_body := UserBody (to_UserResponse u) |})
    by (unfold read_current_user; now rewrite Hg).
  split; [exact Hg|split; [exact Hr|]].
  intros b. now rewrite read_current_user_status_with_active, Hr.
Qed.

Lemma get_current_user_ignores_is_active_witness :
  is_active demo_inactive_user = false /\
  fst (get_current_user (fun _ => true) demo_settings 0 demo_db demo_inactive_request)
    = Ok demo_inactive_user /\
  read_current_user (fun _ => true) demo_settings 0 demo_db demo_inactive_request
    = {| status := 200; resp_body := UserBody (to_UserResponse demo_inactive_user) |} /\
  (forall b, status (read_current_user (fun _ => true) demo_settings 0
                       (store_with_active b demo_db) demo_inactive_request) = 200).
Proof.
  split; [reflexivity|].
  apply (get_current_user_ignores_is_active (fun _ => true) demo_settings 0 demo_db
           demo_inactive_request "Bearer"
           (create_access_token demo_settings 0 [("sub", JStr "b@x.com")] None)
           {| td_email := "b@x.com" |} demo_inactive_user); reflexivity.
Defined.

(** ** C9: the rate-limit key *)

(** C9. [get_client_identifier] is [user:<id>] when [request.state.user]
    holds a user and [ip:<remote address>] otherwise; after a successful
    [get_current_user] the request carries the resolved user, so its key
    is [user:<id>] of that user. *)
Theorem get_client_identifier_cases (req : request) :
  (forall u, state_user req = Some u ->
     get_client_identifier req = "user:" ++ str_of_Z (id u)) /\
  (state_user req = None ->
     get_client_identifier req = "ip:" ++ get_remote_address req) /\
  (forall ok s now db u, fst (get_current_user ok s now db req) = Ok u ->
     get_client_identifier (snd (get_current_user ok s now db req))
     = "user:" ++ str_of_Z (id u)).
Proof.
  unfold get_client_identifier. split; [|split].
  - now intros u ->.
  - now intros ->.
  - intros ok s now db u. unfold get_current_user.
    destruct (oauth2_scheme (authorization req)) as [tok|ex]; [|discriminate].
    destruct (decode_access_token ok s now tok) as [td|]; [|discriminate].
    destruct (query_user_by_email db (td_email td)) as [v|]; [|discriminate].
    simpl. now intros [= ->].
Qed.

(** ** C7: registration *)

Lemma register_fresh ph db ui :
  query_user_by_email db (in_email ui) = None ->
  register ph db ui
  = (Ok {| id := next_id db; email := in_email ui;
           hashed_password := ph (in_password ui); full_name := in_full_name ui;
           is_active := true; is_superuser := false |},
     {| users := users db ++
          [{| id := next_id db; email := in_email ui;
              hashed_password := ph (in_password ui); full_name := in_full_name ui;
              is_active := true; is_superuser := false |}];
        next_id := next_id db + 1 |}).
Proof.
  intros Hq. unfold register, register_check. rewrite Hq. simpl.
  unfold store_insert. simpl.
  apply query_user_by_email_none in Hq. now rewrite Hq.
Qed.

(** C7. [register] with an email already stored (exact string match)
    raises 400 "Email already registered" and leaves the store unchanged;
    with a new email it appends exactly one user, with the next id, the
    hashed password, [is_active = true] and [is_superuser = false], and
    answers 201 with the public representation, which does not depend on
    the password hash. *)
Theorem register_outcomes (ph : string -> string) (db : store) (ui : UserCreate) :
  (forall u, query_user_by_email db (in_email ui) = Some u ->
     register ph db ui = (Raise duplicate_email, db) /\
     status (register_response (fst (register ph db ui))) = 400) /\
  (query_user_by_email db (in_email ui) = None ->
     exists u, register ph db ui
               = (Ok u, {| users := users db ++ [u]; next_id := next_id db + 1 |}) /\
       id u = next_id db /\ email u = in_email ui /\
       hashed_password u = ph (in_password ui) /\ full_name u = in_full_name ui /\
       is_active u = true /\ is_superuser u = false /\
       register_response (fst (register ph db ui))
       = {| status := 201; resp_body := UserBody (to_UserResponse u) |}) /\
  (forall u h, to_UserResponse (with_hash h u) = to_UserResponse u).
Proof.
  split; [|split].
  - intros u Hq. unfold register, register_check. rewrite Hq. split; reflexivity.
  - intros Hq. rewrite (register_fresh ph db ui Hq).
    eexists. split; [reflexivity|]. repeat split.
  - reflexivity.
Qed.

(** ** C3: a duplicate found only at insert time *)

Lemma find_app_last {A} (f : A -> bool) (l : list A) (x : A) :
  find f l = None -> f x = true -> find f (l ++ [x]) = Some x.
Proof.
  induction l as [|y l IH]; simpl; [now intros _ ->|].
  destruct (f y); [discriminate|]. exact IH.
Qed.

(** C3 (code_bug). When two registrations of the same new email both
    pass the existence check before either commits, the first gets 201
    and the second's insert raises [IntegrityError], which no code of
    [register] catches: the database handler answers 500 "DATABASE_ERROR",
    whereas the same duplicate seen by the existence check answers 400. *)
Theorem concurrent_duplicate_register_500 (ph : string -> string) (db : store)
    (ui : UserCreate) :
  query_user_by_email db (in_email ui) = None ->
  status (register_response (fst (fst (register_interleaved ph db ui ui)))) = 201 /\
  register_response (snd (fst (register_interleaved ph db ui ui)))
    = database_error_response /\
  status (register_response (fst (register ph (snd (register ph db ui)) ui))) = 400.
Proof.
  intros Hq.
  pose proof (query_user_by_email_none db (in_email ui) Hq) as Hx.
  assert (Hi : register_interleaved ph db ui ui
    = ((Ok {| id := next_id db; email := in_email ui;
              hashed_password := ph (in_password ui); full_name := in_full_name ui;
              is_active := true; is_superuser := false |}, Raise IntegrityError),
       {| users := users db ++
            [{| id := next_id db; email := in_email ui;
                hashed_password := ph (in_password ui); full_name := in_full_name ui;
                is_active := true; is_superuser := false |}];
          next_id := next_id db + 1 |})).
  { unfold register_interleaved, register_check. rewrite Hq.
    unfold register_finish, store_insert. simpl. rewrite Hx. simpl.
    rewrite existsb_app. simpl. rewrite String.eqb_refl, orb_true_r. reflexivity. }
  rewrite Hi. split; [reflexivity|split; [reflexivity|]].
  - rewrite (register_fresh ph db ui Hq). simpl.
    unfold register, register_check, query_user_by_email. simpl.
    rewrite find_app_last; [reflexivity|exact Hq|].
    simpl. apply String.eqb_refl.
Qed.

Lemma concurrent_duplicate_register_500_witness :
  query_user_by_email {| users := []; next_id := 1 |} "a@x.com" = None /\
  status (register_response
    (fst (fst (register_interleaved (fun p => "bcrypt:" ++ p) {| users := []; next_id := 1 |}
       {| in_email := "a@x.com"; in_password := "password123"; in_full_name := None |}
       {| in_email := "a@x.com"; in_password := "password123"; in_full_name := None |})))) = 201 /\
  register_response
    (snd (fst (register_interleaved (fun p => "bcrypt:" ++ p) {| users := []; next_id := 1 |}
       {| in_email := "a@x.com"; in_password := "password123"; in_full_name := None |}
       {| in_email := "a@x.com"; in_password := "password123"; in_full_name := None |})))
    = database_error_response /\
  status (register_response
    (fst (register (fun p => "bcrypt:" ++ p)
       (snd (register (fun p => "bcrypt:" ++ p) {| users := []; next_id := 1 |}
          {| in_email := "a@x.com"; in_password := "password123"; in_full_name := None |}))
       {| in_email := "a@x.com"; in_password := "password123"; in_full_name := None |}))) = 400.
Proof.
  split; [reflexivity|].
  apply (concurrent_duplicate_register_500 (fun p => "bcrypt:" ++ p)
           {| users := []; next_id := 1 |}
           {| in_email := "a@x.com"; in_password := "password123"; in_full_name := None |}).
  reflexivity.
Defined.

(** ** C10: rate limits *)

Lemma read_current_user_status ok s now db req :
  status (read_current_user ok s now db req) = 200 \/
  status (read_current_user ok s now db req) = 401.
Proof.
  unfold read_current_user, get_current_user, oauth2_scheme.
  destruct (authorization req) as [|scheme tok]; [now right|].
  destruct (String.eqb (lower scheme) "bearer"); [|now right].
  destruct (decode_access_token ok s now tok) as [td|]; [|now right].
  destruct (query_user_by_email db (td_email td)); [now left|now right].
Qed.

(** C10 (code_bug). [GET /auth/me] carries no [@limiter.limit] decorator
    and no [SlowAPIMiddleware] is installed, so the declared default
    limits (100/minute, 1000/hour) are never checked there: any sequence
    of such requests, however many and however close in time, leaves the
    limiter state untouched and no response is a 429. *)
Theorem me_route_never_rate_limited (ok : string -> bool)
    (pv : string -> string -> result bool) (ph : string -> string) (s : settings)
    (st : app_state) (req : request) (times : list Z) :
  run ok pv ph s st (map (fun t => (t, req, MeCall)) times)
    = (map (fun t => read_current_user ok s t (app_db st) req) times, st) /\
  Forall (fun r => status r <> 429)
    (fst (run ok pv ph s st (map (fun t => (t, req, MeCall)) times))).
Proof.
  assert (Hrun : run ok pv ph s st (map (fun t => (t, req, MeCall)) times)
    = (map (fun t => read_current_user ok s t (app_db st) req) times, st)).
  { induction times as [|t times IH]; simpl; [reflexivity|]. now rewrite IH. }
  split; [exact Hrun|]. rewrite Hrun. simpl.
  apply Forall_forall. intros r Hr. apply in_map_iff in Hr as [t [<- _]].
  destruct (read_current_user_status ok s t (app_db st) req) as [H|H];
    rewrite H; discriminate.
Qed.

(** A concrete run: a registered user sends 101 [GET /auth/me] requests
    within the same second with a fresh access token; the last is a 200. *)
Example me_101st_request_not_limited :
  option_map status
    (nth_error (fst (run (fun _ => true) demo_verify demo_hash demo_settings demo_state
                       (map (fun t => (t, demo_me_request, MeCall))
                            (repeat 0 101)))) 100)
  = Some 200.
Proof. vm_compute. reflexivity. Qed.

(** The registration limit itself works as declared: from one IP, five
    registrations in a minute succeed, the sixth is a 429, and once the
    window has elapsed the next one succeeds again. *)
Example register_limit_fixed_window :
  map status
    (fst (run (fun _ => true) demo_verify demo_hash demo_settings demo_state
            (map (fun n => (n, demo_anon_request, demo_register n)) [0; 1; 2; 3; 4; 5; 59; 60])))
  = [201; 201; 201; 201; 201; 429; 429; 201].
Proof. vm_compute. reflexivity. Qed.

(** * Further properties of the code *)

(** ** Claim dictionaries *)

Lemma dict_get_set_same (k : string) (v : jvalue) (d : claims) :
  dict_get k (dict_set k v d) = Some v.
Proof.
  induction d as [|[k' v'] d IH]; simpl.
  - now rewrite String.eqb_refl.
  - destruct (String.eqb k k') eqn:E; simpl.
    + apply String.eqb_eq in E. subst. now rewrite String.eqb_refl.
    + rewrite E. exact IH.
Qed.

Lemma dict_get_set_other (k k2 : string) (v : jvalue) (d : claims) :
  k2 <> k -> dict_get k2 (dict_set k v d) = dict_get k2 d.
Proof.
  intros Hne. induction d as [|[k' v'] d IH]; simpl.
  - apply String.eqb_neq in Hne. now rewrite Hne.
  - destruct (String.eqb k k') eqn:E; simpl.
    + apply String.eqb_eq in E. subst.
      apply String.eqb_neq in Hne. now rewrite Hne.
    + now rewrite IH.
Qed.

(** ** Token lifetime *)




(** X2: round trip of an access token. The token [create_access_token]
    makes for [{"sub": e}] decodes to [e] at every time up to its expiry
    ([now] plus [expires_delta], or plus [ACCESS_TOKEN_EXPIRE_MINUTES]
    when the delta is absent or zero) and to [None] after it; under a
    different [SECRET_KEY] it never decodes. *)
Theorem access_token_round_trip (ok : string -> bool) (s : settings) (now : Z)
    (e : string) (d : option Z) :
  ok e = true ->
  (forall t, decode_access_token ok s t (create_access_token s now [("sub", JStr e)] d)
     = if t <=? match d with
                | Some x => if Z.eqb x 0 then now + ACCESS_TOKEN_EXPIRE_MINUTES s * 60
                            else now + x
                | None => now + ACCESS_TOKEN_EXPIRE_MINUTES s * 60
                end
       then Some {| td_email := e |} else None) /\
  (forall s' t, SECRET_KEY s' <> SECRET_KEY s ->
     decode_access_token ok s' t (create_access_token s now [("sub", JStr e)] d) = None).
Proof.
  intros Hok. split.
  - intros t. unfold create_access_token, decode_access_token.
    set (E := match d with Some x => _ | None => _ end).
    cbn -[Z.add Z.ltb Z.mul]. rewrite String.eqb_refl. cbn -[Z.add Z.ltb Z.mul].
    rewrite Z.ltb_antisym. destruct (t <=? E); cbn.
    + unfold make_TokenData. now rewrite Hok.
    + reflexivity.
  - intros s' t Hne. eapply decode_access_token_raise.
    unfold create_access_token, jwt_encode. apply jwt_decode_wrong_key.
    intros H. apply Hne. now symmetry.
Qed.

Lemma access_token_round_trip_witness :
  decode_access_token (fun _ => true) demo_settings 1800
    (create_access_token demo_settings 0 [("sub", JStr "a@x.com")] None)
    = Some {| td_email := "a@x.com" |} /\
  decode_access_token (fun _ => true) demo_settings 1801
    (create_access_token demo_settings 0 [("sub", JStr "a@x.com")] None) = None.
Proof.
  destruct (access_token_round_trip (fun _ => true) demo_settings 0 "a@x.com" None
              eq_refl) as [H _].
  split; [apply (H 1800) | apply (H 1801)].
Defined.

(** X3: a zero [expires_delta] is not a zero lifetime for access tokens.
    [create_access_token] treats [timedelta(0)] as absent (it is falsy)
    and uses the default lifetime, while [create_refresh_token] tests
    [is None] and makes a token that expires at its creation time: it
    decodes at [now] and at no later time. *)
Theorem expires_delta_zero (ok : string -> bool) (s : settings) (now : Z)
    (data : claims) (e : string) :
  ok e = true ->
  create_access_token s now data (Some 0) = create_access_token s now data None /\
  (forall t, decode_access_token ok s t (create_refresh_token s now [("sub", JStr e)] (Some 0))
     = if t <=? now then Some {| td_email := e |} else None).
Proof.
  intros Hok. split; [reflexivity|].
  intros t. unfold create_refresh_token, decode_access_token.
  cbn -[Z.add Z.ltb]. rewrite String.eqb_refl. cbn -[Z.add Z.ltb].
  rewrite Z.add_0_r, Z.ltb_antisym. destruct (t <=? now); cbn; [|reflexivity].
  unfold make_TokenData. now rewrite Hok.
Qed.

Lemma expires_delta_zero_witness :
  create_access_token demo_settings 0 [] (Some 0) = create_access_token demo_settings 0 [] None /\
  (forall t, decode_access_token (fun _ => true) demo_settings t
               (create_refresh_token demo_settings 0 [("sub", JStr "a@x.com")] (Some 0))
     = if t <=? 0 then Some {| td_email := "a@x.com" |} else None).
Proof.
  apply (expires_delta_zero (fun _ => true) demo_settings 0 [] "a@x.com"). reflexivity.
Defined.

(** X4: [create_access_token] copies the caller's claims and then sets
    [exp] and [iat]: a caller-supplied [exp] or [iat] is overwritten,
    every other claim is kept unchanged. *)
Theorem create_access_token_claims (s : settings) (now : Z) (data : claims)
    (d : option Z) :
  exists c, create_access_token s now data d = Jws (SECRET_KEY s) ALGORITHM (Some c) /\
    dict_get "exp" c = Some (JInt (match d with
                                   | Some x => if Z.eqb x 0
                                               then now + ACCESS_TOKEN_EXPIRE_MINUTES s * 60
                                               else now + x
                                   | None => now + ACCESS_TOKEN_EXPIRE_MINUTES s * 60
                                   end)) /\
    dict_get "iat" c = Some (JInt now) /\
    (forall k, k <> "exp" -> k <> "iat" -> dict_get k c = dict_get k data).
Proof.
  unfold create_access_token, jwt_encode, dict_update. simpl.
  eexists. split; [reflexivity|]. split; [|split].
  - rewrite dict_get_set_other by discriminate. apply dict_get_set_same.
  - apply dict_get_set_same.
  - intros k H1 H2. rewrite !dict_get_set_other by auto. reflexivity.
Qed.

(** ** The Credential Store invariant *)

Lemma NoDup_snoc {A} (l : list A) (x : A) : NoDup l -> ~ In x l -> NoDup (l ++ [x]).
Proof.
  intros Hl Hx. eapply Permutation_NoDup.
  - apply Permutation_cons_append.
  - now constructor.
Qed.

Lemma store_wf_empty (n : Z) : store_wf {| users := []; next_id := n |}.
Proof. split; [constructor|split; [constructor|constructor]]. Qed.

Lemma store_insert_wf (db db' : store) (u u' : User) :
  store_wf db -> store_insert db u = Ok (db', u') -> store_wf db'.
Proof.
  intros [He [Hi Hlt]]. unfold store_insert.
  destruct (existsb (fun v => String.eqb (email v) (email u)) (users db)) eqn:Ex;
    [discriminate|].
  intros [= <- _]. unfold store_wf; simpl. rewrite !map_app. simpl. split; [|split].
  - apply NoDup_snoc; [exact He|]. intros Hin. apply in_map_iff in Hin as [v [Hv Hin]].
    assert (Ht : existsb (fun v => String.eqb (email v) (email u)) (users db) = true).
    { apply existsb_exists. exists v. split; [exact Hin|]. now apply String.eqb_eq. }
    congruence.
  - apply NoDup_snoc; [exact Hi|]. intros Hin. apply in_map_iff in Hin as [v [Hv Hin]].
    rewrite Forall_forall in Hlt. specialize (Hlt v Hin). lia.
  - apply Forall_app. split; [|constructor; [simpl; lia|constructor]].
    eapply Forall_impl; [|exact Hlt]. simpl. intros v Hv. lia.
Qed.

Lemma register_finish_wf ph chk ui db :
  store_wf db -> store_wf (snd (register_finish ph chk ui db)).
Proof.
  intros Hwf. unfold register_finish. destruct chk; [|exact Hwf].
  destruct (store_insert db (register_new_user ph ui)) as [[db' u]|] eqn:E; [|exact Hwf].
  eapply store_insert_wf; eauto.
Qed.

Lemma handle_request_wf ok pv ph s now st req c :
  store_wf (app_db st) -> store_wf (app_db (snd (handle_request ok pv ph s now st req c))).
Proof.
  intros Hwf. destruct c as [ui|form|]; unfold handle_request; [| |exact Hwf].
  - match goal with |- context [check_limits ?a ?b ?c ?d ?e] =>
      destruct (check_limits a b c d e) as [[] m'] end; simpl; [|exact Hwf].
    unfold register. pose proof (register_finish_wf ph (register_check (app_db st) ui) ui
                                   (app_db st) Hwf) as H.
    destruct (register_finish ph _ ui (app_db st)). exact H.
  - match goal with |- context [check_limits ?a ?b ?c ?d ?e] =>
      destruct (check_limits a b c d e) as [[] m'] end; exact Hwf.
Qed.

(** X5: the store keeps unique emails and unique ids below [next_id]
    through any sequence of requests to the auth routes, and also when
    two registrations are interleaved between existence check and
    commit (the unique index rejects the second insert). *)
Theorem store_wf_preserved (ok : string -> bool) (pv : string -> string -> result bool)
    (ph : string -> string) (s : settings) (st : app_state)
    (rs : list (Z * request * route_call)) :
  store_wf (app_db st) ->
  store_wf (app_db (snd (run ok pv ph s st rs))) /\
  (forall a b, store_wf (snd (register_interleaved ph (app_db st) a b))).
Proof.
  intros Hwf. split.
  - revert st Hwf. induction rs as [|[[now req] c] rs IH]; intros st Hwf; [exact Hwf|].
    simpl. pose proof (handle_request_wf ok pv ph s now st req c Hwf) as H1.
    destruct (handle_request ok pv ph s now st req c) as [resp st'].
    specialize (IH st' H1). destruct (run ok pv ph s st' rs). exact IH.
  - intros a b. unfold register_interleaved.
    pose proof (register_finish_wf ph (register_check (app_db st) a) a (app_db st) Hwf) as H1.
    destruct (register_finish ph (register_check (app_db st) a) a (app_db st)) as [ra db1].
    pose proof (register_finish_wf ph (register_check (app_db st) b) b db1 H1) as H2.
    destruct (register_finish ph (register_check (app_db st) b) b db1). exact H2.
Qed.

Lemma store_wf_preserved_witness :
  store_wf (app_db (snd (run (fun _ => true) demo_verify demo_hash demo_settings
    {| app_db := {| users := []; next_id := 1 |}; app_mem := [] |}
    (map (fun n => (n, demo_anon_request, demo_register (n mod 2))) [0; 1; 2; 3])))) /\
  (forall a b, store_wf (snd (register_interleaved demo_hash {| users := []; next_id := 1 |} a b))).
Proof.
  apply (store_wf_preserved (fun _ => true) demo_verify demo_hash demo_settings
           {| app_db := {| users := []; next_id := 1 |}; app_mem := [] |}).
  apply store_wf_empty.
Defined.

(** ** Register, then log in, then resolve the principal *)

Lemma access_token_decode_at ok s now e d t :
  ok e = true ->
  decode_access_token ok s t (create_access_token s now [("sub", JStr e)] d)
  = if t <=? match d with
             | Some x => if Z.eqb x 0 then now + ACCESS_TOKEN_EXPIRE_MINUTES s * 60
                         else now + x
             | None => now + ACCESS_TOKEN_EXPIRE_MINUTES s * 60
             end
    then Some {| td_email := e |} else None.
Proof.
  intros Hok. unfold create_access_token, decode_access_token.
  set (E := match d with Some x => _ | None => _ end).
  cbn -[Z.add Z.ltb Z.mul]. rewrite String.eqb_refl. cbn -[Z.add Z.ltb Z.mul].
  rewrite Z.ltb_antisym. destruct (t <=? E); cbn; [|reflexivity].
  unfold make_TokenData. now rewrite Hok.
Qed.

(** X6: the end-to-end flow. Registering a new email, then logging in
    with the same email and password (the hasher verifying its own hash)
    succeeds, and the access token it returns, sent to [GET /auth/me]
    before it expires, resolves to the registered user: 200 with that
    user's public representation. *)
Theorem register_login_me (ok : string -> bool) (pv : string -> string -> result bool)
    (ph : string -> string) (s : settings) (db : store) (ui : UserCreate)
    (now t : Z) (host : option string) :
  query_user_by_email db (in_email ui) = None ->
  pv (in_password ui) (ph (in_password ui)) = Ok true ->
  ok (in_email ui) = true ->
  t <= now + ACCESS_TOKEN_EXPIRE_MINUTES s * 60 ->
  exists u l,
    fst (register ph db ui) = Ok u /\ email u = in_email ui /\
    login pv s now (snd (register ph db ui))
      {| username := in_email ui; password := in_password ui |} = Ok l /\
    read_current_user ok s t (snd (register ph db ui))
      {| authorization := Header "Bearer" (access_token l);
         client_host := host; state_user := None |}
    = {| status := 200; resp_body := UserBody (to_UserResponse u) |}.
Proof.
  intros Hq Hpv Hok Ht. rewrite (register_fresh ph db ui Hq). simpl.
  set (u := {| id := next_id db; email := in_email ui;
               hashed_password := ph (in_password ui); full_name := in_full_name ui;
               is_active := true; is_superuser := false |}).
  assert (Hq' : query_user_by_email {| users := users db ++ [u]; next_id := next_id db + 1 |}
                  (in_email ui) = Some u).
  { unfold query_user_by_email. simpl. apply find_app_last; [exact Hq|].
    simpl. apply String.eqb_refl. }
  unfold login. simpl. rewrite Hq'. unfold verify_password. simpl. rewrite Hpv. simpl.
  do 2 eexists. split; [reflexivity|]. split; [reflexivity|]. split; [reflexivity|].
  unfold read_current_user, get_current_user. simpl.
  rewrite (access_token_decode_at ok s now (in_email ui) None t Hok).
  replace (t <=? now + ACCESS_TOKEN_EXPIRE_MINUTES s * 60) with true
    by (symmetry; now apply Z.leb_le).
  simpl. now rewrite Hq'.
Qed.

Lemma register_login_me_witness :
  exists u l,
    fst (register demo_hash demo_db
           {| in_email := "c@x.com"; in_password := "password123"; in_full_name := None |}) = Ok u /\
    email u = "c@x.com" /\
    login demo_verify demo_settings 0
      (snd (register demo_hash demo_db
              {| in_email := "c@x.com"; in_password := "password123"; in_full_name := None |}))
      {| username := "c@x.com"; password := "password123" |} = Ok l /\
    read_current_user (fun _ => true) demo_settings 60
      (snd (register demo_hash demo_db
              {| in_email := "c@x.com"; in_password := "password123"; in_full_name := None |}))
      {| authorization := Header "Bearer" (access_token l);
         client_host := None; state_user := None |}
    = {| status := 200; resp_body := UserBody (to_UserResponse u) |}.
Proof.
  apply (register_login_me (fun _ => true) demo_verify demo_hash demo_settings demo_db
           {| in_email := "c@x.com"; in_password := "password123"; in_full_name := None |}
           0 60 None).
  - reflexivity.
  - reflexivity.
  - reflexivity.
  - simpl. lia.
Defined.

(** ** Request state *)


(** ** The fixed-window limiter *)

Lemma mem_get_put_same (k : string) (v : Z * Z) (m : mem) :
  mem_get k (mem_put k v m) = Some v.
Proof.
  induction m as [|[k' v'] m IH]; simpl.
  - now rewrite String.eqb_refl.
  - destruct (String.eqb k k') eqn:E; simpl.
    + now rewrite E.
    + rewrite E. exact IH.
Qed.

Lemma mem_get_put_other (k k2 : string) (v : Z * Z) (m : mem) :
  k2 <> k -> mem_get k2 (mem_put k v m) = mem_get k2 m.
Proof.
  intros Hne. induction m as [|[k' v'] m IH]; simpl.
  - apply String.eqb_neq in Hne. now rewrite Hne.
  - destruct (String.eqb k k') eqn:E; simpl.
    + apply String.eqb_eq in E. subst. apply String.eqb_neq in Hne. now rewrite Hne.
    + now rewrite IH.
Qed.

Lemma check_limits_single (t : Z) (ident scope : string) (l : limit_item) (m : mem) :
  check_limits t ident scope [l] m
  = let '(c, m') := incr t (limit_key l ident scope) (per l) m in
    (if c <=? amount l then Ok tt else Raise (RateLimitExceeded (limit_text l)), m').
Proof.
  simpl. unfold hit, limit_key. destruct (incr _ _ _ _) as [c m'].
  now destruct (c <=? amount l).
Qed.

Lemma incr_live (t : Z) (k : string) (p : Z) (m : mem) (c T : Z) :
  mem_get k m = Some (c, T) -> t < T -> 1 <= c ->
  incr t k p m = (c + 1, mem_put k (c + 1, T) m).
Proof.
  intros Hg Ht Hc. unfold incr. rewrite Hg.
  replace (T <=? t) with false by (symmetry; apply Z.leb_gt; lia).
  replace (c + 1 =? 1) with false by (symmetry; apply Z.eqb_neq; lia).
  reflexivity.
Qed.

Lemma incr_fresh (t : Z) (k : string) (p : Z) (m : mem) :
  match mem_get k m with Some (_, T) => T <=? t | None => true end = true ->
  incr t k p m = (1, mem_put k (1, t + p) m).
Proof.
  intros H. unfold incr. destruct (mem_get k m) as [[c T]|]; [|reflexivity].
  now rewrite H.
Qed.

Lemma check_seq_cons ident scope ls t ts m :
  check_seq ident scope ls (t :: ts) m
  = let '(r, m') := check_limits t ident scope ls m in
    let '(rs, m'') := check_seq ident scope ls ts m' in
    (r :: rs, m'').
Proof. reflexivity. Qed.

Lemma check_seq_live ident scope l ts m c T :
  mem_get (limit_key l ident scope) m = Some (c, T) -> 1 <= c ->
  forallb (fun t => t <? T) ts = true ->
  fst (check_seq ident scope [l] ts m)
    = map (fun i => window_answer l (c + Z.of_nat i)) (seq 1 (length ts)) /\
  mem_get (limit_key l ident scope) (snd (check_seq ident scope [l] ts m))
    = Some (c + Z.of_nat (length ts), T).
Proof.
  revert m c. induction ts as [|t ts IH]; intros m c Hg Hc Hts.
  - simpl. now rewrite Z.add_0_r.
  - simpl in Hts. apply andb_true_iff in Hts as [Ht Hts]. apply Z.ltb_lt in Ht.
    rewrite check_seq_cons, check_limits_single, (incr_live t _ (per l) m c T Hg Ht Hc).
    destruct (IH (mem_put (limit_key l ident scope) (c + 1, T) m) (c + 1))
      as [IH1 IH2]; [apply mem_get_put_same|lia|exact Hts|].
    destruct (check_seq ident scope [l] ts _) as [rs m''] eqn:E. simpl in *.
    split.
    + f_equal.
      rewrite IH1, <- (seq_shift _ 1), map_map. apply map_ext. intros i. f_equal.
      rewrite ?Zpos_P_of_succ_nat, ?Nat2Z.inj_succ. lia.
    + rewrite IH2. f_equal. f_equal. lia.
Qed.

(** X8: the per-route limits are fixed windows. Once no live counter is
    stored for an identity at [t0], a request at [t0] opens a window of
    [per] seconds: the [i]-th request of that window (counting rejected
    ones) passes the route's limiter check iff [i <= amount], and the
    first request at or after [t0 + per] passes again. For [register]
    this is 5 per 60 seconds, for [login] 10 per 60 seconds. *)
Theorem route_limit_fixed_window (c : route_call) (l : limit_item) (ident : string)
    (t0 : Z) (rest : list Z) (m : mem) :
  route_limits c = [l] -> 0 < per l -> 1 <= amount l ->
  match mem_get (limit_key l ident (route_scope c)) m with
  | Some (_, T) => T <=? t0
  | None => true
  end = true ->
  forallb (fun t => t <? t0 + per l) rest = true ->
  fst (check_seq ident (route_scope c) (route_limits c) (t0 :: rest) m)
    = map (fun i => window_answer l (Z.of_nat i)) (seq 1 (S (length rest))) /\
  (forall t', t0 + per l <= t' ->
     fst (check_limits t' ident (route_scope c) (route_limits c)
            (snd (check_seq ident (route_scope c) (route_limits c) (t0 :: rest) m)))
     = Ok tt).
Proof.
  intros Hl Hp Ha Hfresh Hrest. rewrite Hl.
  set (K := limit_key l ident (route_scope c)) in *.
  set (m1 := mem_put K (1, t0 + per l) m).
  assert (Hc0 : check_limits t0 ident (route_scope c) [l] m
                = (window_answer l 1, m1)).
  { rewrite check_limits_single. fold K. rewrite (incr_fresh t0 K (per l) m Hfresh).
    reflexivity. }
  destruct (check_seq_live ident (route_scope c) l rest m1 1 (t0 + per l))
    as [H1 H2]; [apply mem_get_put_same|lia|exact Hrest|].
  rewrite check_seq_cons, Hc0. destruct (check_seq ident (route_scope c) [l] rest m1) as [rs m2].
  cbn [fst snd] in *. split.
  - cbn [seq map]. f_equal. rewrite H1, <- (seq_shift _ 1), map_map. apply map_ext. intros i. f_equal.
    rewrite ?Zpos_P_of_succ_nat, ?Nat2Z.inj_succ. lia.
  - intros t' Ht'. rewrite check_limits_single. fold K.
    rewrite incr_fresh; [|unfold K; rewrite H2; now apply Z.leb_le].
    simpl. unfold window_answer.
    replace (1 <=? amount l) with true by (symmetry; now apply Z.leb_le). reflexivity.
Qed.

Lemma route_limit_fixed_window_witness :
  fst (check_seq "ip:10.0.0.1" "app.api.auth.register" [limit_5_per_minute]
         [0; 10; 20; 30; 40; 50; 59] [])
    = map (fun i => window_answer limit_5_per_minute (Z.of_nat i)) (seq 1 7) /\
  (forall t', 0 + 60 <= t' ->
     fst (check_limits t' "ip:10.0.0.1" "app.api.auth.register" [limit_5_per_minute]
            (snd (check_seq "ip:10.0.0.1" "app.api.auth.register" [limit_5_per_minute]
                    [0; 10; 20; 30; 40; 50; 59] []))) = Ok tt).
Proof.
  apply (route_limit_fixed_window
           (RegisterCall {| in_email := "a@x.com"; in_password := "password123";
                            in_full_name := None |})
           limit_5_per_minute "ip:10.0.0.1" 0 [10; 20; 30; 40; 50; 59] []);
    vm_compute; try reflexivity; discriminate.
Defined.

Lemma string_length_app (a b : string) :
  String.length (a ++ b) = (String.length a + String.length b)%nat.
Proof. induction a as [|x a IH]; simpl; congruence. Qed.

Lemma string_app_cancel_r (a b t : string) : a ++ t = b ++ t -> a = b.
Proof.
  revert b. induction a as [|x a IH]; intros [|y b] H; simpl in H.
  - reflexivity.
  - apply (f_equal String.length) in H. simpl in H. rewrite string_length_app in H. lia.
  - apply (f_equal String.length) in H. simpl in H. rewrite string_length_app in H. lia.
  - injection H as -> H. f_equal. now apply IH.
Qed.

Lemma string_app_cancel_l (p a b : string) : p ++ a = p ++ b -> a = b.
Proof. induction p as [|x p IH]; simpl; [easy|]. intros H. injection H. exact IH. Qed.

Lemma incr_put (t : Z) (k : string) (p : Z) (m : mem) :
  exists v, snd (incr t k p m) = mem_put k v m.
Proof.
  unfold incr. destruct (mem_get k m) as [[c T]|]; [destruct (T <=? t)|];
    eexists; reflexivity.
Qed.

(** X9: limiter counters are separate per identity and per route. A
    [register] or [login] limiter check for one identifier leaves the
    counter of every other identifier for that route unchanged, and a
    [register] check leaves the [login] counter of the same identifier
    unchanged. *)
Theorem rate_limit_counters_independent (c : route_call) (l : limit_item)
    (identA identB : string) (t : Z) (m : mem) :
  route_limits c = [l] -> identA <> identB ->
  mem_get (limit_key l identB (route_scope c))
          (snd (check_limits t identA (route_scope c) (route_limits c) m))
  = mem_get (limit_key l identB (route_scope c)) m /\
  (forall ui form,
     mem_get (limit_key limit_10_per_minute identA (route_scope (LoginCall form)))
       (snd (check_limits t identA (route_scope (RegisterCall ui))
               (route_limits (RegisterCall ui)) m))
     = mem_get (limit_key limit_10_per_minute identA (route_scope (LoginCall form))) m).
Proof.
  intros Hl Hne. split.
  - rewrite Hl, check_limits_single.
    destruct (incr_put t (limit_key l identA (route_scope c)) (per l) m) as [v Hv].
    destruct (incr t (limit_key l identA (route_scope c)) (per l) m) as [n m'].
    cbn [snd] in *. subst m'. apply mem_get_put_other.
    unfold limit_key. intros H. apply string_app_cancel_l in H.
    apply Hne. symmetry. eapply string_app_cancel_r. exact H.
  - intros ui form. cbn [route_limits]. rewrite check_limits_single.
    destruct (incr_put t (limit_key limit_5_per_minute identA (route_scope (RegisterCall ui)))
                (per limit_5_per_minute) m) as [v Hv].
    destruct (incr t (limit_key limit_5_per_minute identA (route_scope (RegisterCall ui)))
                (per limit_5_per_minute) m) as [n m'].
    cbn [snd] in *. subst m'. apply mem_get_put_other.
    unfold limit_key. intros H. apply string_app_cancel_l in H.
    simpl in H. apply string_app_cancel_l in H. discriminate H.
Qed.

Lemma rate_limit_counters_independent_witness :
  mem_get (limit_key limit_5_per_minute "ip:10.0.0.2" "app.api.auth.register")
    (snd (check_limits 0 "ip:10.0.0.1" "app.api.auth.register" [limit_5_per_minute]
            [("LIMITER/ip:10.0.0.2/app.api.auth.register/5 per 1 minute", (3, 60))]))
  = Some (3, 60) /\
  (forall ui form,
     mem_get (limit_key limit_10_per_minute "ip:10.0.0.1" (route_scope (LoginCall form)))
       (snd (check_limits 0 "ip:10.0.0.1" (route_scope (RegisterCall ui))
               (route_limits (RegisterCall ui))
               [("LIMITER/ip:10.0.0.2/app.api.auth.register/5 per 1 minute", (3, 60))]))
     = None).
Proof.
  apply (rate_limit_counters_independent
           (RegisterCall {| in_email := "a@x.com"; in_password := "password123";
                            in_full_name := None |})
           limit_5_per_minute "ip:10.0.0.1" "ip:10.0.0.2" 0
           [("LIMITER/ip:10.0.0.2/app.api.auth.register/5 per 1 minute", (3, 60))]).
  - reflexivity.
  - discriminate.
Defined.

(** ** Client identifiers *)






(** ** The health check *)


(** ** CORS origins *)


Lemma split_comma_cons_shape (s : string) : exists p ps, split_comma s = p :: ps.
Proof.
  induction s as [|c s [p [ps IH]]]; simpl; [eauto|].
  rewrite IH. destruct (Ascii.eqb c ","%char); eauto.
Qed.

Lemma split_comma_length (s : string) :
  length (split_comma s) = S (count_commas s).
Proof.
  induction s as [|c s IH]; [reflexivity|]. simpl.
  destruct (split_comma_cons_shape s) as [p [ps E]]. rewrite E in *.
  destruct (Ascii.eqb c ","%char); simpl in *; lia.
Qed.



(** X12: a string value of [CORS_ORIGINS] is split on every comma: the
    validator returns one origin more than the string has commas, so it
    never returns an empty list, and empty pieces (as in ["a,,b"] or a
    trailing comma) are kept as origins. *)
Theorem cors_origins_count (s : string) :
  length (assemble_cors_origins (PyStr s)) = S (count_commas s).
Proof. simpl. rewrite length_map. apply split_comma_length. Qed.



(** ** Refresh tokens *)

(** X14: a refresh token for a subject accepted by the [TokenData] schema
    decodes (through [decode_access_token]) to that subject until its
    expiry and to [None] after it; without [expires_delta] the expiry is
    [7 * 24 * 3600] seconds (7 days) after creation. The refresh token
    carries no [iat] claim, so an explicit negative delta makes a token
    already expired when it is created. *)
Theorem refresh_token_lifetime (ok : string -> bool) (s : settings) (now : Z)
    (e : string) (d : option Z) :
  ok e = true ->
  forall t, decode_access_token ok s t (create_refresh_token s now [("sub", JStr e)] d)
    = if t <=? now + match d with None => 7 * 24 * 3600 | Some x => x end
      then Some {| td_email := e |} else None.
Proof.
  intros Hok t. unfold create_refresh_token, decode_access_token.
  set (E := now + match d with None => _ | Some x => x end).
  cbn -[Z.add Z.ltb Z.mul]. rewrite String.eqb_refl. cbn -[Z.add Z.ltb Z.mul].
  rewrite Z.ltb_antisym. destruct (t <=? E); cbn; [|reflexivity].
  unfold make_TokenData. now rewrite Hok.
Qed.

Lemma refresh_token_lifetime_witness :
  decode_access_token (fun _ => true) demo_settings 604800
    (create_refresh_token demo_settings 0 [("sub", JStr "a@x.com")] None)
    = Some {| td_email := "a@x.com" |} /\
  decode_access_token (fun _ => true) demo_settings 604801
    (create_refresh_token demo_settings 0 [("sub", JStr "a@x.com")] None) = None.
Proof.
  split.
  - exact (refresh_token_lifetime (fun _ => true) demo_settings 0 "a@x.com" None
             eq_refl 604800).
  - exact (refresh_token_lifetime (fun _ => true) demo_settings 0 "a@x.com" None
             eq_refl 604801).
Defined.

(** ** What each route may change *)






